(** * safe_integer.hpp: a shallow embedding of [safe_int<I>]

    [safe_int<I>] wraps one signed integer [val] of type [I] and guards
    each arithmetic operator with range checks that throw
    [std::overflow_error], [std::underflow_error] or [std::domain_error].

    The embedding keeps the two integer widths that C++ arithmetic on [I]
    involves: [bits], the width of [I] itself, and [pbits], the width of
    the type in which the operands of an arithmetic expression are
    evaluated after integral promotion ([int] when [I] is narrower than
    [int], otherwise [I]).  The result of a negation, addition,
    subtraction or multiplication is reduced to the two's-complement range
    of the width it is computed in, and a value stored in [val] to the
    range of [I].  Division and remainder by zero, and of the most
    negative value of the promoted type by -1, have no result to reduce:
    their behaviour is undefined, and a member function that evaluates
    one has the outcome [Undefined]. *)

From Stdlib Require Import ZArith Lia Bool List.
Import ListNotations.

Local Open Scope Z_scope.

(** ** Exceptions and member functions *)

Inductive exception : Type :=
| overflow_error
| underflow_error
| domain_error.

(** A call returns, throws, or runs into an operation without defined
    behaviour. *)
Inductive outcome (A : Type) : Type :=
| Returns (a : A)
| Throws (e : exception)
| Undefined.

Arguments Returns {A} a.
Arguments Throws {A} e.
Arguments Undefined {A}.

(** The class has the single data member [val]. *)
Record safe_int : Type := mk_safe_int { val : Z }.

(** [I value() const noexcept { return val; }] *)
Definition value (s : safe_int) : Z := val s.

(** A member function runs against the receiver [*this]: it either returns
    or throws, and leaves the receiver in some state in both cases. *)
Definition method (A : Type) : Type := safe_int -> outcome A * safe_int.

Definition ret {A : Type} (a : A) : method A :=
  fun this => (Returns a, this).

Definition throw {A : Type} (e : exception) : method A :=
  fun this => (Throws e, this).

Definition bind {A B : Type} (m : method A) (k : A -> method B) : method B :=
  fun this =>
    match m this with
    | (Returns a, this') => k a this'
    | (Throws e, this') => (Throws e, this')
    | (Undefined, this') => (Undefined, this')
    end.

Declare Scope method_scope.
Delimit Scope method_scope with method.
Notation "x <- m ;; k" := (bind m (fun x => k))
  (at level 61, m at next level, right associativity) : method_scope.
Notation "m ;; k" := (bind m (fun _ => k))
  (at level 61, right associativity) : method_scope.
Local Open Scope method_scope.

(** Reading and assigning the member [val]. *)
Definition read_val : method Z :=
  fun this => (Returns (val this), this).

Definition write_val (v : Z) : method unit :=
  fun _ => (Returns tt, mk_safe_int v).

(** [return *this;] *)
Definition this_object : method safe_int :=
  fun this => (Returns this, this).

(** The value of an arithmetic expression, when it has one. *)
Definition defined {A : Type} (x : option A) : method A :=
  fun this =>
    match x with
    | Some a => (Returns a, this)
    | None => (Undefined, this)
    end.

(** [if (c) throw e;] *)
Definition throw_if (c : bool) (e : exception) : method unit :=
  if c then throw e else ret tt.

(** A member function applied to a temporary: the temporary is discarded
    and the receiver is not touched. *)
Definition on_temporary {A : Type} (tmp : safe_int) (m : method A) : method A :=
  fun this => (fst (m tmp), this).

Definition result_of {A : Type} (r : outcome A * safe_int) : outcome A := fst r.
Definition receiver_after {A : Type} (r : outcome A * safe_int) : safe_int := snd r.

(** The five arithmetic operators that exist in a compound and in a binary
    form. *)
Inductive binop : Type := Add | Sub | Mul | Div | Rem.

(** ** Two's-complement integers of a given width *)

(** Reduction of [x] to the signed [w]-bit range. *)
Definition wrap (w x : Z) : Z :=
  (x + 2 ^ (w - 1)) mod 2 ^ w - 2 ^ (w - 1).

Section SafeInt.

(** Width of [I] and width of the promoted type. *)
Variable bits : Z.
Variable pbits : Z.

(** [std::numeric_limits<I>::max()] and [min()]. *)
Definition max : Z := 2 ^ (bits - 1) - 1.
Definition min : Z := - 2 ^ (bits - 1).

Definition in_range (x : Z) : Prop := min <= x <= max.

(** Arithmetic on promoted operands. *)
Definition int_neg (a : Z) : Z := wrap pbits (- a).
Definition int_add (a b : Z) : Z := wrap pbits (a + b).
Definition int_sub (a b : Z) : Z := wrap pbits (a - b).
Definition int_mul (a b : Z) : Z := wrap pbits (a * b).

(** The most negative value of the promoted type. *)
Definition int_min : Z := - 2 ^ (pbits - 1).

(** [a / b] and [a % b] truncate towards zero; they have no value for
    [b == 0] and for [int_min / -1], [int_min % -1]. *)
Definition traps (a b : Z) : bool :=
  (b =? 0) || ((a =? int_min) && (b =? -1)).

Definition int_div (a b : Z) : option Z :=
  if traps a b then None else Some (wrap pbits (Z.quot a b)).

Definition int_rem (a b : Z) : option Z :=
  if traps a b then None else Some (wrap pbits (Z.rem a b)).

(** Conversion of a value to [I], as on assignment to [val]. *)
Definition to_I (x : Z) : Z := wrap bits x.

(** *** Constructors *)

(** [safe_int(I i) : val { i } { }] *)
Definition safe_int_of (i : Z) : safe_int := mk_safe_int i.

(** Construction from a scalar [n] of another integral type.  The two
    constructor templates, [safe_int(N n)] and [safe_int(safe_int<N> n)],
    are enabled only if [std::is_assignable<N, I>] holds, which it does
    for no integral [N]; so the call selects [safe_int(I i)] and [n] is
    converted to [I] as its argument.  Nothing on this path checks or
    throws.  For the same reason no constructor accepts a [safe_int] of
    another width. *)
Definition safe_int_from_scalar (n : Z) : outcome safe_int :=
  Returns (safe_int_of (to_I n)).

(** *** Unary operators *)

(** [safe_int& operator=(I v)] *)
Definition operator_assign (v : Z) : method safe_int :=
  write_val v ;; this_object.

(** [safe_int operator+()] *)
Definition operator_plus : method safe_int := this_object.

(** [safe_int operator-()] *)
Definition operator_neg : method safe_int :=
  v <- read_val ;;
  throw_if (v <? int_neg max) overflow_error ;;
  ret (safe_int_of (to_I (int_neg v))).

(** [safe_int& operator++()] *)
Definition operator_pre_inc : method safe_int :=
  v <- read_val ;;
  throw_if (v =? max) overflow_error ;;
  write_val (to_I (int_add v 1)) ;;
  this_object.

(** [safe_int& operator--()] *)
Definition operator_pre_dec : method safe_int :=
  v <- read_val ;;
  throw_if (v =? min) underflow_error ;;
  write_val (to_I (int_sub v 1)) ;;
  this_object.

(** [safe_int operator++(int)]: [return safe_int(val++);] *)
Definition operator_post_inc : method safe_int :=
  v <- read_val ;;
  throw_if (v =? max) overflow_error ;;
  write_val (to_I (int_add v 1)) ;;
  ret (safe_int_of v).

(** [safe_int operator--(int)]: [return safe_int(val--);] *)
Definition operator_post_dec : method safe_int :=
  v <- read_val ;;
  throw_if (v =? min) underflow_error ;;
  write_val (to_I (int_sub v 1)) ;;
  ret (safe_int_of v).

(** *** Compound assignment with a scalar right-hand side *)

(** [safe_int& operator+=(I rhs)] *)
Definition operator_add_assign (rhs : Z) : method safe_int :=
  v <- read_val ;;
  (if (rhs >? 0) && (v >? int_sub max rhs) then throw overflow_error
   else if (rhs <? 0) && (v <? int_sub min rhs) then throw underflow_error
   else ret tt) ;;
  write_val (to_I (int_add v rhs)) ;;
  this_object.

(** [safe_int& operator-=(I rhs)] *)
Definition operator_sub_assign (rhs : Z) : method safe_int :=
  v <- read_val ;;
  throw_if ((v >=? 0) && (rhs <? int_neg max)) overflow_error ;;
  (if (rhs <? 0) && (v >? int_add max rhs) then throw overflow_error
   else if (rhs >? 0) && (v <? int_add min rhs) then throw underflow_error
   else ret tt) ;;
  write_val (to_I (int_sub v rhs)) ;;
  this_object.

(** The test shared by [operator*=] and [operator/=]:
    [(val < -max || rhs < -max) && (val == -1 || rhs == -1)]. *)
Definition min_and_minus_one (v rhs : Z) : bool :=
  ((v <? int_neg max) || (rhs <? int_neg max)) &&
  ((v =? -1) || (rhs =? -1)).

(** [safe_int& operator*=(I rhs)] *)
Definition operator_mul_assign (rhs : Z) : method safe_int :=
  v <- read_val ;;
  (if v >? 0 then
     bound <- defined (int_div max v) ;;
     throw_if (rhs >? bound) overflow_error
   else if v <? 0 then
     if min_and_minus_one v rhs then throw overflow_error
     else
       bound <- defined (int_div min v) ;;
       throw_if (rhs >? bound) underflow_error
   else ret tt) ;;
  write_val (to_I (int_mul v rhs)) ;;
  this_object.

(** [safe_int& operator/=(I rhs)] *)
Definition operator_div_assign (rhs : Z) : method safe_int :=
  v <- read_val ;;
  throw_if (min_and_minus_one v rhs) underflow_error ;;
  throw_if (rhs =? 0) domain_error ;;
  q <- defined (int_div v rhs) ;;
  write_val (to_I q) ;;
  this_object.

(** [safe_int& operator%=(I rhs)] *)
Definition operator_rem_assign (rhs : Z) : method safe_int :=
  v <- read_val ;;
  throw_if (rhs =? 0) domain_error ;;
  m <- defined (int_rem v rhs) ;;
  write_val (to_I m) ;;
  this_object.

Definition compound (op : binop) (rhs : Z) : method safe_int :=
  match op with
  | Add => operator_add_assign rhs
  | Sub => operator_sub_assign rhs
  | Mul => operator_mul_assign rhs
  | Div => operator_div_assign rhs
  | Rem => operator_rem_assign rhs
  end.

(** *** Binary operators with a scalar right-hand side:
    [return safe_int(val) op= rhs;] *)

Definition operator_add (rhs : Z) : method safe_int :=
  v <- read_val ;; on_temporary (safe_int_of v) (operator_add_assign rhs).

Definition operator_sub (rhs : Z) : method safe_int :=
  v <- read_val ;; on_temporary (safe_int_of v) (operator_sub_assign rhs).

Definition operator_mul (rhs : Z) : method safe_int :=
  v <- read_val ;; on_temporary (safe_int_of v) (operator_mul_assign rhs).

Definition operator_div (rhs : Z) : method safe_int :=
  v <- read_val ;; on_temporary (safe_int_of v) (operator_div_assign rhs).

Definition operator_rem (rhs : Z) : method safe_int :=
  v <- read_val ;; on_temporary (safe_int_of v) (operator_rem_assign rhs).

Definition binary (op : binop) (rhs : Z) : method safe_int :=
  match op with
  | Add => operator_add rhs
  | Sub => operator_sub rhs
  | Mul => operator_mul rhs
  | Div => operator_div rhs
  | Rem => operator_rem rhs
  end.

(** *** Overloads taking a [safe_int] right-hand side *)

(** [return *this op= rhs.value();] *)
Definition compound_si (op : binop) (rhs : safe_int) : method safe_int :=
  match op with
  | Add => operator_add_assign (value rhs)
  | Sub => operator_sub_assign (value rhs)
  | Mul => operator_mul_assign (value rhs)
  | Div => operator_div_assign (value rhs)
  | Rem => operator_rem_assign (value rhs)
  end.

(** [return safe_int(val) op= rhs.value();] *)
Definition binary_si (op : binop) (rhs : safe_int) : method safe_int :=
  v <- read_val ;;
  on_temporary (safe_int_of v)
    match op with
    | Add => operator_add_assign (value rhs)
    | Sub => operator_sub_assign (value rhs)
    | Mul => operator_mul_assign (value rhs)
    | Div => operator_div_assign (value rhs)
    | Rem => operator_rem_assign (value rhs)
    end.

(** Every operator that can throw, as one request. *)
Inductive operation : Type :=
| Negate
| PreInc
| PreDec
| PostInc
| PostDec
| Compound (op : binop) (rhs : Z)
| CompoundSI (op : binop) (rhs : safe_int)
| Binary (op : binop) (rhs : Z)
| BinarySI (op : binop) (rhs : safe_int).

Definition run (o : operation) : method safe_int :=
  match o with
  | Negate => operator_neg
  | PreInc => operator_pre_inc
  | PreDec => operator_pre_dec
  | PostInc => operator_post_inc
  | PostDec => operator_post_dec
  | Compound op rhs => compound op rhs
  | CompoundSI op rhs => compound_si op rhs
  | Binary op rhs => binary op rhs
  | BinarySI op rhs => binary_si op rhs
  end.

(** The two forms of a binary arithmetic operator: [a op= rhs], which
    assigns to the receiver, and [a op rhs], which works on a temporary. *)
Inductive form : Type := Assigning | NonMutating.

Definition apply_op (f : form) (op : binop) (rhs : Z) : method safe_int :=
  match f with
  | Assigning => compound op rhs
  | NonMutating => binary op rhs
  end.

(** The mathematically exact result of a binary operator. *)
Definition exact (op : binop) (a b : Z) : Z :=
  match op with
  | Add => a + b
  | Sub => a - b
  | Mul => a * b
  | Div => Z.quot a b
  | Rem => Z.rem a b
  end.

(** The exact value an operation returns and the exact value it leaves
    in a receiver that held [v]. *)
Definition expected (o : operation) (v : Z) : Z * Z :=
  match o with
  | Negate => (- v, v)
  | PreInc => (v + 1, v + 1)
  | PreDec => (v - 1, v - 1)
  | PostInc => (v, v + 1)
  | PostDec => (v, v - 1)
  | Compound op rhs => (exact op v rhs, exact op v rhs)
  | CompoundSI op rhs => (exact op v (value rhs), exact op v (value rhs))
  | Binary op rhs => (exact op v rhs, v)
  | BinarySI op rhs => (exact op v (value rhs), v)
  end.

Definition right_operand (o : operation) : Z :=
  match o with
  | Compound _ rhs | Binary _ rhs => rhs
  | CompoundSI _ rhs | BinarySI _ rhs => value rhs
  | _ => 0
  end.

Definition multiplies (o : operation) : bool :=
  match o with
  | Compound Mul _ | CompoundSI Mul _ | Binary Mul _ | BinarySI Mul _ => true
  | _ => false
  end.

(** Divisions and modulos, in any overload. *)
Definition divides (o : operation) : bool :=
  match o with
  | Compound Div _ | CompoundSI Div _ | Binary Div _ | BinarySI Div _
  | Compound Rem _ | CompoundSI Rem _ | Binary Rem _ | BinarySI Rem _ => true
  | _ => false
  end.

(** The four overloads of one arithmetic operator with the same right-hand
    value: [a op= rhs], [a op= safe_int(rhs)], [a op rhs] and
    [a op safe_int(rhs)]. *)
Definition overloads (op : binop) (rhs : Z) : list operation :=
  [ Compound op rhs; CompoundSI op (safe_int_of rhs);
    Binary op rhs; BinarySI op (safe_int_of rhs) ].

End SafeInt.

(** ** Arithmetic facts *)

Section Arithmetic.

Variable bits : Z.
Variable pbits : Z.

(** [I] has at least two bits and promotion never narrows. *)
Hypothesis bits_ge_2 : 2 <= bits.
Hypothesis promotion : bits <= pbits.

Lemma min_max : min bits = - max bits - 1.
Proof. unfold min, max. lia. Qed.

Lemma max_ge_1 : 1 <= max bits.
Proof.
  unfold max.
  assert (2 ^ 1 <= 2 ^ (bits - 1)) by (apply Z.pow_le_mono_r; lia).
  change (2 ^ 1) with 2 in *. lia.
Qed.

Lemma max_promoted : max bits <= max pbits.
Proof.
  unfold max.
  assert (2 ^ (bits - 1) <= 2 ^ (pbits - 1)) by (apply Z.pow_le_mono_r; lia).
  lia.
Qed.

Lemma max_promoted_strict : bits < pbits -> max bits < max pbits.
Proof.
  intros Hlt. unfold max.
  assert (2 ^ (bits - 1) < 2 ^ (pbits - 1)) by (apply Z.pow_lt_mono_r; lia).
  lia.
Qed.

Lemma wrap_exact (w x : Z) :
  1 <= w -> min w <= x <= max w -> wrap w x = x.
Proof.
  unfold min, max, wrap. intros Hw Hx.
  replace (2 ^ w) with (2 * 2 ^ (w - 1)).
  - rewrite Z.mod_small; lia.
  - rewrite <- Z.pow_succ_r by lia. f_equal. lia.
Qed.

(** A converted value is always some member of the range of [I]; the
    question for each operator is whether it is the exact result. *)
Lemma to_I_in_range (x : Z) : in_range bits (to_I bits x).
Proof.
  unfold in_range, to_I, wrap, min, max.
  assert (0 < 2 ^ (bits - 1)) by (apply Z.pow_pos_nonneg; lia).
  replace (2 ^ bits) with (2 * 2 ^ (bits - 1))
    by (rewrite <- Z.pow_succ_r by lia; f_equal; lia).
  pose proof (Z.mod_pos_bound (x + 2 ^ (bits - 1)) (2 * 2 ^ (bits - 1))).
  lia.
Qed.

Lemma to_I_exact (x : Z) : in_range bits x -> to_I bits x = x.
Proof. intros Hx. apply wrap_exact; [lia | exact Hx]. Qed.

Lemma promoted_exact (x : Z) :
  min pbits <= x <= max pbits -> wrap pbits x = x.
Proof. intros Hx. apply wrap_exact; [lia | exact Hx]. Qed.

(** Truncating division never leaves the range of its dividend, and the
    remainder is smaller than the divisor. *)
Lemma quot_bounds (a b : Z) :
  b <> 0 -> - Z.abs a <= Z.quot a b <= Z.abs a.
Proof.
  intros Hb.
  pose proof (Z.quot_abs a b Hb) as Habs.
  assert (0 <= Z.abs a ÷ Z.abs b <= Z.abs a).
  { split.
    - apply Z.quot_pos; lia.
    - rewrite Z.quot_div_nonneg by lia.
      apply Z.div_le_upper_bound; nia. }
  lia.
Qed.

Lemma quot_half (a b : Z) :
  2 <= Z.abs b -> 2 * Z.abs (Z.quot a b) <= Z.abs a.
Proof.
  intros Hb.
  rewrite <- Z.quot_abs by lia.
  rewrite Z.quot_div_nonneg by lia.
  pose proof (Z.mul_div_le (Z.abs a) (Z.abs b)).
  assert (0 <= Z.abs a / Z.abs b) by (apply Z.div_pos; lia).
  nia.
Qed.

Lemma quot_in_range (a b : Z) :
  in_range bits a -> in_range bits b -> b <> 0 ->
  ~ (a = min bits /\ b = -1) ->
  in_range bits (Z.quot a b).
Proof.
  unfold in_range. intros Ha Hb Hb0 Hex.
  pose proof min_max. pose proof max_ge_1.
  destruct (Z.eq_dec b 1) as [-> | Hb1].
  { rewrite Z.quot_1_r. lia. }
  destruct (Z.eq_dec b (-1)) as [-> | Hbm1].
  { assert (a <> min bits) by tauto.
    pose proof (quot_bounds a (-1)). lia. }
  pose proof (quot_half a b). lia.
Qed.

Lemma rem_in_range (a b : Z) :
  in_range bits b -> b <> 0 -> in_range bits (Z.rem a b).
Proof.
  unfold in_range. intros Hb Hb0.
  pose proof min_max.
  pose proof (Z.rem_bound_abs a b Hb0). lia.
Qed.

(** When promoted division and remainder have a value. *)
Lemma int_div_defined (a b : Z) :
  b <> 0 -> ~ (a = min pbits /\ b = -1) ->
  int_div pbits a b = Some (wrap pbits (Z.quot a b)).
Proof.
  intros Hb Hab. unfold int_div, traps.
  change (int_min pbits) with (min pbits).
  destruct (Z.eqb_spec b 0); [ contradiction | ].
  destruct (Z.eqb_spec a (min pbits)), (Z.eqb_spec b (-1));
    first [ reflexivity | tauto ].
Qed.

Lemma int_rem_defined (a b : Z) :
  b <> 0 -> ~ (a = min pbits /\ b = -1) ->
  int_rem pbits a b = Some (wrap pbits (Z.rem a b)).
Proof.
  intros Hb Hab. unfold int_rem, traps.
  change (int_min pbits) with (min pbits).
  destruct (Z.eqb_spec b 0); [ contradiction | ].
  destruct (Z.eqb_spec a (min pbits)), (Z.eqb_spec b (-1));
    first [ reflexivity | tauto ].
Qed.

Lemma int_div_min_minus_one (a b : Z) :
  a = min pbits -> b = -1 -> int_div pbits a b = None.
Proof.
  intros -> ->. unfold int_div, traps.
  change (int_min pbits) with (min pbits).
  rewrite Z.eqb_refl. reflexivity.
Qed.

Lemma int_rem_min_minus_one (a b : Z) :
  a = min pbits -> b = -1 -> int_rem pbits a b = None.
Proof.
  intros -> ->. unfold int_rem, traps.
  change (int_min pbits) with (min pbits).
  rewrite Z.eqb_refl. reflexivity.
Qed.

(** The bound [min / val] of [operator*=]: the truncating quotient, unless
    [val == -1] and [I] is not promoted, where [min / -1] has no value. *)
Lemma min_quot_promoted (v : Z) :
  in_range bits v -> v < 0 -> v <> -1 \/ bits < pbits ->
  int_div pbits (min bits) v = Some (Z.quot (min bits) v).
Proof.
  unfold in_range. intros Hv Hneg Hcase.
  pose proof min_max.
  assert (min pbits = - max pbits - 1) by (unfold min, max; lia).
  pose proof max_ge_1. pose proof max_promoted.
  pose proof max_promoted_strict.
  rewrite int_div_defined by lia.
  f_equal. apply promoted_exact.
  destruct (Z.eq_dec v (-1)) as [-> | Hv1].
  - change (Z.quot (min bits) (-1)) with (Z.quot (min bits) (- (1))).
    rewrite Z.quot_opp_r, Z.quot_1_r by lia. lia.
  - pose proof (quot_half (min bits) v). lia.
Qed.

(** The two bounds of [operator*=] are exact. *)
Lemma product_le_max (v rhs : Z) :
  0 < v -> v * rhs <= max bits -> rhs <= Z.quot (max bits) v.
Proof.
  intros Hv Hprod. pose proof max_ge_1.
  rewrite Z.quot_div_nonneg by lia.
  apply Z.div_le_lower_bound; lia.
Qed.

Lemma product_ge_min (v rhs : Z) :
  v < 0 -> min bits <= v * rhs -> rhs <= Z.quot (min bits) v.
Proof.
  intros Hv Hprod. pose proof min_max. pose proof max_ge_1.
  rewrite <- (Z.quot_opp_opp (min bits) v) by lia.
  rewrite Z.quot_div_nonneg by lia.
  apply Z.div_le_lower_bound; lia.
Qed.

End Arithmetic.

(** ** Proof automation for member functions *)

(** Unfolds the member functions and the monad, and nothing else. *)
Ltac step_method :=
  cbv beta iota delta
    [run apply_op compound binary compound_si binary_si
     operator_neg operator_pre_inc operator_pre_dec
     operator_post_inc operator_post_dec
     operator_add_assign operator_sub_assign operator_mul_assign
     operator_div_assign operator_rem_assign
     operator_add operator_sub operator_mul operator_div operator_rem
     min_and_minus_one
     on_temporary bind read_val write_val this_object throw_if defined
     throw ret result_of receiver_after safe_int_of value val
     fst snd andb orb] in *.

Ltac split_if :=
  match goal with
  | |- context [if ?c then _ else _] => destruct c eqn:?
  end.

(** Follows every path through a member function. *)
Ltac all_paths :=
  step_method; unfold int_div, int_rem, traps in *; step_method;
  repeat (split_if; step_method).

(** ** The 8-bit scenario *)

Example scenario_int8 :
  result_of (operator_add 8 32 27 (safe_int_of 100)) = Returns (safe_int_of 127) /\
  result_of (operator_add 8 32 28 (safe_int_of 100)) = Throws overflow_error /\
  result_of (operator_div 8 32 (-1) (safe_int_of (-128))) = Throws underflow_error /\
  result_of (operator_rem 8 32 0 (safe_int_of 5)) = Throws domain_error /\
  result_of (operator_neg 8 32 (safe_int_of (-128))) = Throws overflow_error /\
  result_of (operator_neg 8 32 (safe_int_of (-127))) = Returns (safe_int_of 127) /\
  result_of (operator_pre_inc 8 32 (safe_int_of 127)) = Throws overflow_error /\
  result_of (operator_pre_dec 8 32 (safe_int_of (-128))) = Throws underflow_error /\
  result_of (operator_mul 8 32 2 (safe_int_of 127)) = Throws overflow_error.
Proof. vm_compute. repeat split. Qed.

(** ** Failure atomicity and the binary operators *)

(** C6: whenever negation, a pre- or post-increment or -decrement, a
    compound assignment or a binary operator throws, the receiver holds
    exactly the value it held before the call. *)
Theorem failed_operation_keeps_value :
  forall (bits pbits : Z) (o : operation) (this : safe_int) (e : exception),
    result_of (run bits pbits o this) = Throws e ->
    receiver_after (run bits pbits o this) = this.
Proof.
  intros bits pbits o [v] e.
  destruct o as [ | | | | | op rhs | op rhs | op rhs | op rhs ];
    try destruct op; all_paths; intros Hthrow;
    first [ reflexivity | discriminate Hthrow ].
Qed.

Lemma failed_operation_keeps_value_witness :
  receiver_after (run 8 32 PreInc (safe_int_of 127)) = safe_int_of 127.
Proof.
  apply (failed_operation_keeps_value 8 32 PreInc (safe_int_of 127)
           overflow_error).
  reflexivity.
Defined.

(** C7: for each of [+ - * / %] and either kind of right-hand side, the
    binary operator throws exactly the exception that the compound
    assignment throws on the copy [safe_int(val)] of the left operand,
    returns exactly the value the compound assignment stores in that copy,
    and leaves the left operand itself unchanged. *)
Theorem binary_agrees_with_compound :
  forall (bits pbits : Z) (op : binop) (a : safe_int),
    let copy := safe_int_of (value a) in
    (forall rhs : Z,
        (forall e,
            result_of (binary bits pbits op rhs a) = Throws e <->
            result_of (compound bits pbits op rhs copy) = Throws e) /\
        (forall r,
            result_of (binary bits pbits op rhs a) = Returns r <->
            (exists r',
                result_of (compound bits pbits op rhs copy) = Returns r') /\
            receiver_after (compound bits pbits op rhs copy) = r) /\
        receiver_after (binary bits pbits op rhs a) = a) /\
    (forall rhs : safe_int,
        (forall e,
            result_of (binary_si bits pbits op rhs a) = Throws e <->
            result_of (compound_si bits pbits op rhs copy) = Throws e) /\
        (forall r,
            result_of (binary_si bits pbits op rhs a) = Returns r <->
            (exists r',
                result_of (compound_si bits pbits op rhs copy) = Returns r') /\
            receiver_after (compound_si bits pbits op rhs copy) = r) /\
        receiver_after (binary_si bits pbits op rhs a) = a).
Proof.
  intros bits pbits op [v] copy; subst copy.
  split; intros rhs; (split; [ | split ]);
    try (intros x); destruct op; all_paths;
    try reflexivity;
    try (split; [ intros H; first [ exact H | discriminate H
                                  | inversion H; subst; split; eauto ]
                | intros H; first [ exact H
                                  | destruct H as [[r' Hr] _]; discriminate Hr
                                  | destruct H as [_ <-]; reflexivity ] ]).
Qed.

(** ** Range reasoning *)

Lemma range_facts (bits pbits : Z) :
  2 <= bits -> bits <= pbits ->
  min bits = - max bits - 1 /\ min pbits = - max pbits - 1 /\
  1 <= max bits /\ max bits <= max pbits.
Proof.
  intros Hb Hp. repeat split.
  - apply min_max.
  - apply min_max.
  - apply max_ge_1; assumption.
  - apply max_promoted; assumption.
Qed.

(** Replaces every [wrap w x] whose argument provably fits in [w] bits. *)
Ltac exact_wraps :=
  unfold int_neg, int_add, int_sub, int_mul, to_I in *;
  repeat match goal with
         | |- context [int_div ?w ?a ?b] =>
             rewrite (int_div_defined w a b) by lia
         | |- context [int_rem ?w ?a ?b] =>
             rewrite (int_rem_defined w a b) by lia
         | |- context [int_div ?w ?a ?b] =>
             rewrite (int_div_min_minus_one w a b) by lia
         | |- context [int_rem ?w ?a ?b] =>
             rewrite (int_rem_min_minus_one w a b) by lia
         | |- context [wrap ?w ?x] => rewrite (wrap_exact w x) by lia
         | H : context [wrap ?w ?x] |- _ => rewrite (wrap_exact w x) in H by lia
         end.

Ltac no_wrap t :=
  lazymatch t with
  | context [wrap _ _] => fail
  | _ => idtac
  end.

(** Decides one comparison of the running member function. *)
Ltac case_cmp :=
  match goal with
  | |- context [Z.gtb ?a ?b] => rewrite (Z.gtb_ltb a b)
  | |- context [Z.geb ?a ?b] => rewrite (Z.geb_leb a b)
  | |- context [Z.ltb ?a ?b] =>
      no_wrap a; no_wrap b; destruct (Z.ltb_spec a b)
  | |- context [Z.leb ?a ?b] =>
      no_wrap a; no_wrap b; destruct (Z.leb_spec a b)
  | |- context [Z.eqb ?a ?b] =>
      no_wrap a; no_wrap b; destruct (Z.eqb_spec a b)
  end.

(** Runs a member function whose checks are decided by linear arithmetic. *)
(** Opens a division or remainder whose operands are not yet decided. *)
Ltac expose_traps :=
  match goal with
  | |- context [int_div _ _ _] => unfold int_div, traps
  | |- context [int_rem _ _ _] => unfold int_rem, traps
  end;
  repeat match goal with
         | |- context [int_min ?w] => change (int_min w) with (min w)
         end.

Ltac run_method :=
  step_method;
  repeat match goal with
         | H : context [if _ then _ else _] |- _ => revert H
         | H : context [int_div _ _ _] |- _ => revert H
         | H : context [int_rem _ _ _] |- _ => revert H
         end;
  repeat (exact_wraps; first [ case_cmp | expose_traps ]; step_method);
  exact_wraps; intros.

(** ** Unary negation *)

(** C9: unary negation throws [overflow_error] exactly when the stored
    value is [min], which is the same as [val < -max]; for every other
    stored value [x] it returns [-x] exactly and leaves the operand as it
    was. *)
Theorem negation_fails_only_at_min :
  forall (bits pbits : Z),
    2 <= bits -> bits <= pbits ->
    forall this : safe_int,
      in_range bits (value this) ->
      (value this = min bits <-> value this < - max bits) /\
      (result_of (operator_neg bits pbits this) = Throws overflow_error <->
       value this = min bits) /\
      (value this <> min bits ->
       operator_neg bits pbits this =
         (Returns (safe_int_of (- value this)), this)).
Proof.
  intros bits pbits Hb Hp [x] Hx.
  destruct (range_facts bits pbits Hb Hp) as (Hmin & Hpmin & Hmax1 & Hmaxp).
  unfold in_range in *; step_method.
  split; [ lia | ].
  split; [ split | ]; intros; run_method;
    first [ reflexivity | discriminate | lia ].
Qed.

Lemma negation_fails_only_at_min_witness :
  (value (safe_int_of (-127)) = min 8 <-> value (safe_int_of (-127)) < - max 8) /\
  (result_of (operator_neg 8 32 (safe_int_of (-127))) = Throws overflow_error <->
   value (safe_int_of (-127)) = min 8) /\
  (value (safe_int_of (-127)) <> min 8 ->
   operator_neg 8 32 (safe_int_of (-127)) =
     (Returns (safe_int_of (- value (safe_int_of (-127)))), safe_int_of (-127))).
Proof.
  apply (negation_fails_only_at_min 8 32); [ lia | lia | ].
  unfold in_range; vm_compute; split; discriminate.
Defined.

(** ** Subtraction *)

(** C8: subtraction, in both forms, throws [overflow_error] when
    [val >= 0] and [rhs < -max]; for the remaining negative [rhs] it
    throws [overflow_error] exactly if [val > max + rhs]; for positive
    [rhs] it throws [underflow_error] exactly if [val < min + rhs]; in
    every other case it returns [val - rhs], which [-=] also stores in the
    receiver while [-] leaves the receiver alone. *)
Theorem subtraction_cases :
  forall (bits pbits : Z),
    2 <= bits -> bits <= pbits ->
    forall (f : form) (this : safe_int) (rhs : Z),
      in_range bits (value this) -> in_range bits rhs ->
      let v := value this in
      let r := result_of (apply_op bits pbits f Sub rhs this) in
      (0 <= v /\ rhs < - max bits -> r = Throws overflow_error) /\
      (rhs < 0 -> ~ (0 <= v /\ rhs < - max bits) ->
       (r = Throws overflow_error <-> v > max bits + rhs)) /\
      (rhs > 0 -> (r = Throws underflow_error <-> v < min bits + rhs)) /\
      (~ (0 <= v /\ rhs < - max bits) ->
       ~ (rhs < 0 /\ v > max bits + rhs) ->
       ~ (rhs > 0 /\ v < min bits + rhs) ->
       apply_op bits pbits f Sub rhs this =
         (Returns (safe_int_of (v - rhs)),
          match f with
          | Assigning => safe_int_of (v - rhs)
          | NonMutating => this
          end)).
Proof.
  intros bits pbits Hb Hp f [x] rhs Hx Hrhs v r; subst v r.
  destruct (range_facts bits pbits Hb Hp) as (Hmin & Hpmin & Hmax1 & Hmaxp).
  unfold in_range in *; step_method.
  repeat match goal with |- _ /\ _ => split end; intros;
    try match goal with |- _ <-> _ => split; intros end;
    destruct f; run_method;
    first [ reflexivity | discriminate | lia ].
Qed.

Lemma subtraction_cases_witness :
  apply_op 8 32 Assigning Sub (-27) (safe_int_of 100) =
    (Returns (safe_int_of 127), safe_int_of 127).
Proof.
  apply (subtraction_cases 8 32 ltac:(lia) ltac:(lia) Assigning
           (safe_int_of 100) (-27));
    unfold in_range; vm_compute; try split; intros; try discriminate;
    intuition discriminate.
Defined.

(** ** Multiplication *)

(** C10: with a strictly positive stored value, multiplication in either
    form never throws [underflow_error], whatever [rhs] is: it throws
    exactly when [rhs > max / val] (truncating division), and then the
    exception is [overflow_error]. *)
Theorem positive_multiplication_never_underflows :
  forall (bits pbits : Z),
    2 <= bits -> bits <= pbits ->
    forall (f : form) (this : safe_int) (rhs : Z),
      in_range bits (value this) -> in_range bits rhs ->
      0 < value this ->
      let r := result_of (apply_op bits pbits f Mul rhs this) in
      r <> Throws underflow_error /\
      (forall e, r = Throws e ->
                 e = overflow_error /\ rhs > Z.quot (max bits) (value this)) /\
      (rhs > Z.quot (max bits) (value this) -> r = Throws overflow_error).
Proof.
  intros bits pbits Hb Hp f [x] rhs Hx Hrhs Hpos r; subst r.
  destruct (range_facts bits pbits Hb Hp) as (Hmin & Hpmin & Hmax1 & Hmaxp).
  unfold in_range in *; step_method.
  assert (Hq : - Z.abs (max bits) <= Z.quot (max bits) x <= Z.abs (max bits))
    by (apply quot_bounds; lia).
  repeat match goal with |- _ /\ _ => split end; intros;
    destruct f; run_method;
    first [ discriminate | lia
          | match goal with H : Throws _ = Throws _ |- _ =>
                              inversion H; subst; split; [ reflexivity | lia ]
            end
          | reflexivity ].
Qed.

Lemma positive_multiplication_never_underflows_witness :
  let r := result_of (apply_op 8 32 Assigning Mul (-128) (safe_int_of 127)) in
  r <> Throws underflow_error /\
  (forall e, r = Throws e ->
             e = overflow_error /\ -128 > Z.quot (max 8) (value (safe_int_of 127))) /\
  (-128 > Z.quot (max 8) (value (safe_int_of 127)) -> r = Throws overflow_error).
Proof.
  apply (positive_multiplication_never_underflows 8 32 ltac:(lia) ltac:(lia)
           Assigning (safe_int_of 127) (-128));
    unfold in_range; vm_compute; try split; intros; try discriminate;
    reflexivity.
Defined.




(** ** Division and modulo *)

(** C4 at a concrete input: for a 32-bit or 64-bit [I], which is not
    promoted, [safe_int<I>(min) %= -1] passes the only check of
    [operator%=] ([rhs == 0]) and evaluates [min % -1], which has no
    defined result, although the exact remainder 0 is representable; the
    sibling [operator/=] guards this pair.  For [int8_t] the same call
    returns 0. *)
Theorem modulo_of_min_by_minus_one :
  in_range 32 (min 32) /\ in_range 32 (-1) /\
  Z.rem (min 32) (-1) = 0 /\ in_range 32 (Z.rem (min 32) (-1)) /\
  apply_op 32 32 Assigning Rem (-1) (safe_int_of (min 32)) =
    (Undefined, safe_int_of (min 32)) /\
  result_of (apply_op 32 32 NonMutating Rem (-1) (safe_int_of (min 32))) =
    Undefined /\
  result_of (apply_op 64 64 Assigning Rem (-1) (safe_int_of (min 64))) =
    Undefined /\
  result_of (apply_op 32 32 Assigning Div (-1) (safe_int_of (min 32))) =
    Throws underflow_error /\
  apply_op 8 32 Assigning Rem (-1) (safe_int_of (min 8)) =
    (Returns (safe_int_of 0), safe_int_of 0).
Proof.
  unfold in_range. vm_compute.
  repeat split; intros; discriminate.
Qed.

(** X19: in either form, dividing [min] by [-1] and dividing [-1] by [min]
    both throw [underflow_error]; dividing any stored value by 0 and
    taking it modulo 0 both throw [domain_error]; every other division
    returns the truncating quotient; modulo by a non-zero [rhs] returns
    the matching remainder, except that [min % -1] in a type that is not
    promoted has no defined result. *)
Theorem division_and_modulo_cases :
  forall (bits pbits : Z),
    2 <= bits -> bits <= pbits ->
    forall (f : form) (this : safe_int) (rhs : Z),
      in_range bits (value this) -> in_range bits rhs ->
      let v := value this in
      result_of (apply_op bits pbits f Div (-1) (safe_int_of (min bits))) =
        Throws underflow_error /\
      result_of (apply_op bits pbits f Div (min bits) (safe_int_of (-1))) =
        Throws underflow_error /\
      result_of (apply_op bits pbits f Div 0 this) = Throws domain_error /\
      result_of (apply_op bits pbits f Rem 0 this) = Throws domain_error /\
      (rhs <> 0 ->
       ~ (v = min bits /\ rhs = -1) -> ~ (v = -1 /\ rhs = min bits) ->
       apply_op bits pbits f Div rhs this =
         (Returns (safe_int_of (Z.quot v rhs)),
          match f with
          | Assigning => safe_int_of (Z.quot v rhs)
          | NonMutating => this
          end)) /\
      (rhs <> 0 ->
       ~ (v = min bits /\ rhs = -1) \/ bits < pbits ->
       apply_op bits pbits f Rem rhs this =
         (Returns (safe_int_of (Z.rem v rhs)),
          match f with
          | Assigning => safe_int_of (Z.rem v rhs)
          | NonMutating => this
          end)) /\
      (bits = pbits ->
       result_of (apply_op bits pbits f Rem (-1) (safe_int_of (min bits))) =
         Undefined).
Proof.
  intros bits pbits Hb Hp f [x] rhs Hx Hrhs v; subst v.
  destruct (range_facts bits pbits Hb Hp) as (Hmin & Hpmin & Hmax1 & Hmaxp).
  pose proof (max_promoted_strict bits pbits Hb) as Hstrict.
  pose proof (rem_in_range bits x rhs Hrhs) as Hrem.
  pose proof (quot_in_range bits Hb x rhs Hx Hrhs) as Hquot.
  unfold in_range in *; step_method.
  repeat match goal with |- _ /\ _ => split end; intros;
    try subst pbits;
    try specialize (Hrem ltac:(assumption));
    try specialize (Hquot ltac:(assumption) ltac:(assumption));
    destruct f; run_method;
    first [ reflexivity | lia ].
Qed.

Lemma division_and_modulo_cases_witness :
  apply_op 8 32 Assigning Div (-3) (safe_int_of (-128)) =
    (Returns (safe_int_of 42), safe_int_of 42).
Proof.
  apply (division_and_modulo_cases 8 32 ltac:(lia) ltac:(lia) Assigning
           (safe_int_of (-128)) (-3));
    unfold in_range; vm_compute; try split; intros; try discriminate;
    intuition discriminate.
Defined.

(** ** Converting constructors *)




(** ** Where the checks and the exact result part ways *)

(** C1 at concrete inputs: [safe_int<int8_t>(2) *= -100] and
    [safe_int<int8_t>(-2) *= -100] both return normally although the
    products -200 and 200 are outside [[-128, 127]]; the receiver ends up
    holding the wrapped values 56 and -56. *)
Theorem multiplication_wraps_silently :
  in_range 8 2 /\ in_range 8 (-2) /\ in_range 8 (-100) /\
  ~ in_range 8 (2 * -100) /\ ~ in_range 8 (-2 * -100) /\
  run 8 32 (Compound Mul (-100)) (safe_int_of 2) =
    (Returns (safe_int_of 56), safe_int_of 56) /\
  run 8 32 (Compound Mul (-100)) (safe_int_of (-2)) =
    (Returns (safe_int_of (-56)), safe_int_of (-56)) /\
  run 8 32 (Binary Mul (-100)) (safe_int_of 2) =
    (Returns (safe_int_of 56), safe_int_of 2).
Proof.
  unfold in_range. vm_compute.
  repeat split; intros; try discriminate;
    match goal with H : _ /\ _ |- _ => destruct H as [H1 H2] end;
    first [ apply H1; reflexivity | apply H2; reflexivity ].
Qed.

(** C2 at concrete inputs.  The exact quotient of -1 by [min] is 0, which
    is representable, yet [safe_int<int8_t>(-1) /= -128] and the binary
    [/] throw [underflow_error], as they do for a 32-bit [I].  For a
    32-bit [I] that is not promoted, [min % -1] (exact result 0) and
    [-1 * 5] (exact result -5) do not return either: each evaluates an
    expression without a defined result. *)
Lemma representable_result_not_returned :
  in_range 8 (-1) /\ in_range 8 (min 8) /\ min 8 <> 0 /\
  exact Div (-1) (min 8) = 0 /\ in_range 8 (exact Div (-1) (min 8)) /\
  apply_op 8 32 Assigning Div (min 8) (safe_int_of (-1)) =
    (Throws underflow_error, safe_int_of (-1)) /\
  apply_op 8 32 NonMutating Div (min 8) (safe_int_of (-1)) =
    (Throws underflow_error, safe_int_of (-1)) /\
  apply_op 32 32 Assigning Div (min 32) (safe_int_of (-1)) =
    (Throws underflow_error, safe_int_of (-1)) /\
  in_range 32 (min 32) /\ in_range 32 (exact Rem (min 32) (-1)) /\
  result_of (apply_op 32 32 Assigning Rem (-1) (safe_int_of (min 32))) =
    Undefined /\
  in_range 32 5 /\ in_range 32 (exact Mul (-1) 5) /\
  result_of (apply_op 32 32 Assigning Mul 5 (safe_int_of (-1))) = Undefined.
Proof.
  unfold in_range. vm_compute.
  repeat split; intros; discriminate.
Qed.

(** C2, amended: for operands in [[min, max]] whose exact result lies in
    [[min, max]] (and a non-zero divisor for [/] and [%]), each of
    [+ - * / %] in both forms returns exactly that result, except that
    [-1 / min] throws [underflow_error].  In a type that is not promoted
    this leaves out [min % -1] and a multiplication with [val == -1]. *)
Theorem representable_results_are_returned :
  forall (bits pbits : Z),
    2 <= bits -> bits <= pbits ->
    forall (f : form) (op : binop) (this : safe_int) (rhs : Z),
      in_range bits (value this) -> in_range bits rhs ->
      in_range bits (exact op (value this) rhs) ->
      (op = Div \/ op = Rem -> rhs <> 0) ->
      let v := value this in
      (op = Div -> v = -1 -> rhs = min bits ->
       apply_op bits pbits f op rhs this = (Throws underflow_error, this)) /\
      (~ (op = Div /\ v = -1 /\ rhs = min bits) ->
       bits < pbits \/
       ~ (op = Mul /\ v = -1) /\ ~ (op = Rem /\ v = min bits /\ rhs = -1) ->
       apply_op bits pbits f op rhs this =
         (Returns (safe_int_of (exact op v rhs)),
          match f with
          | Assigning => safe_int_of (exact op v rhs)
          | NonMutating => this
          end)).
Proof.
  intros bits pbits Hb Hp f op [x] rhs Hx Hrhs Hex Hzero v; subst v.
  destruct (range_facts bits pbits Hb Hp) as (Hmin & Hpmin & Hmax1 & Hmaxp).
  pose proof (max_promoted_strict bits pbits Hb) as Hstrict.
  cbn [value val] in *.
  split.
  - intros -> -> ->. unfold in_range in *.
    destruct f; run_method; first [ reflexivity | lia ].
  - intros Hdiv Hslip.
    destruct op; cbn [exact] in *.
    + unfold in_range in *; destruct f; run_method;
        first [ reflexivity | lia ].
    + unfold in_range in *; destruct f; run_method;
        first [ reflexivity | lia ].
    + destruct (Z.lt_trichotomy x 0) as [Hneg | [-> | Hpos]].
      * assert (Hq : int_div pbits (min bits) x
                     = Some (Z.quot (min bits) x)).
        { apply min_quot_promoted; try assumption.
          destruct (Z.eq_dec x (-1)); [ right | left; assumption ].
          destruct Hslip as [Hlt | [Hm _]]; [ assumption | ].
          exfalso; apply Hm; auto. }
        pose proof (product_ge_min bits Hb x rhs Hneg (proj1 Hex)).
        unfold in_range in *.
        destruct f; step_method; rewrite Hq; run_method;
          first [ reflexivity | lia | nia ].
      * unfold in_range in *; destruct f; run_method;
          first [ reflexivity | lia ].
      * pose proof (product_le_max bits Hb x rhs Hpos (proj2 Hex)).
        assert (- Z.abs (max bits) <= Z.quot (max bits) x
                <= Z.abs (max bits))
          by (apply quot_bounds; lia).
        unfold in_range in *.
        destruct f; run_method; first [ reflexivity | lia ].
    + assert (rhs <> 0) by auto.
      assert (~ (x = -1 /\ rhs = min bits)) by tauto.
      assert (rhs = -1 -> Z.quot x rhs = - x).
      { intros ->. change (-1) with (- (1)).
        rewrite Z.quot_opp_r, Z.quot_1_r by lia. reflexivity. }
      unfold in_range in *.
      destruct f; run_method; first [ reflexivity | lia ].
    + assert (rhs <> 0) by auto.
      assert (bits < pbits \/ ~ (x = min bits /\ rhs = -1)) by tauto.
      unfold in_range in *.
      destruct f; run_method; first [ reflexivity | lia ].
Qed.

Lemma representable_results_are_returned_witness :
  apply_op 8 32 NonMutating Add 27 (safe_int_of 100) =
    (Returns (safe_int_of 127), safe_int_of 100).
Proof.
  apply (representable_results_are_returned 8 32 ltac:(lia) ltac:(lia)
           NonMutating Add (safe_int_of 100) 27);
    unfold in_range; vm_compute; try split; intros; try discriminate;
    try (left; reflexivity);
    intuition discriminate.
Defined.

(** X18: Multiplication is the only operator that can wrap: whenever any other
    operation returns, with the stored value and the right-hand operand in
    range, the returned object and the receiver hold the exact results,
    and these lie in [[min, max]]. *)
Theorem only_multiplication_wraps :
  forall (bits pbits : Z),
    2 <= bits -> bits <= pbits ->
    forall (o : operation) (this r : safe_int),
      in_range bits (value this) -> in_range bits (right_operand o) ->
      multiplies o = false ->
      result_of (run bits pbits o this) = Returns r ->
      value r = fst (expected o (value this)) /\
      value (receiver_after (run bits pbits o this)) =
        snd (expected o (value this)) /\
      in_range bits (value r) /\
      in_range bits (value (receiver_after (run bits pbits o this))).
Proof.
  intros bits pbits Hb Hp o [x] r Hx Hrhs Hmul.
  destruct (range_facts bits pbits Hb Hp) as (Hmin & Hpmin & Hmax1 & Hmaxp).
  destruct o as [ | | | | | op rhs | op [rhs] | op rhs | op [rhs] ];
    try destruct op; try discriminate Hmul;
    cbn [expected exact right_operand value val fst snd] in *;
    try pose proof (rem_in_range bits x rhs Hrhs) as Hrem;
    try pose proof (quot_in_range bits Hb x rhs Hx Hrhs) as Hquot;
    unfold in_range in *; intros Hret; run_method;
    try discriminate;
    try specialize (Hrem ltac:(assumption));
    try (assert (min bits <= Z.quot x rhs <= max bits)
          by (apply Hquot; [ assumption | lia ]));
    exact_wraps;
    match goal with
    | H : Returns _ = Returns _ |- _ => inversion H; subst; clear H
    end;
    step_method; lia.
Qed.

Lemma only_multiplication_wraps_witness :
  value (safe_int_of 126) = fst (expected PostInc (value (safe_int_of 126))) /\
  value (receiver_after (run 8 32 PostInc (safe_int_of 126))) =
    snd (expected PostInc (value (safe_int_of 126))) /\
  in_range 8 (value (safe_int_of 126)) /\
  in_range 8 (value (receiver_after (run 8 32 PostInc (safe_int_of 126)))).
Proof.
  apply (only_multiplication_wraps 8 32 ltac:(lia) ltac:(lia) PostInc
           (safe_int_of 126) (safe_int_of 126));
    unfold in_range; vm_compute; try split; intros; try discriminate;
    reflexivity.
Defined.


(** ** More arithmetic of the bounds *)

Section Bounds.

Variable bits : Z.
Hypothesis bits_ge_2 : 2 <= bits.



End Bounds.

(** ** Increment and decrement *)

(** X1: Prefix [++] throws [overflow_error] at [max] and otherwise stores
    [val + 1]; prefix [--] throws [underflow_error] at [min] and otherwise
    stores [val - 1]; both return the receiver as updated. *)
Theorem prefix_increment_decrement_cases :
  forall (bits pbits : Z),
    2 <= bits -> bits <= pbits ->
    forall this : safe_int,
      in_range bits (value this) ->
      let v := value this in
      (v = max bits ->
       operator_pre_inc bits pbits this = (Throws overflow_error, this)) /\
      (v <> max bits ->
       operator_pre_inc bits pbits this =
         (Returns (safe_int_of (v + 1)), safe_int_of (v + 1))) /\
      (v = min bits ->
       operator_pre_dec bits pbits this = (Throws underflow_error, this)) /\
      (v <> min bits ->
       operator_pre_dec bits pbits this =
         (Returns (safe_int_of (v - 1)), safe_int_of (v - 1))).
Proof.
  intros bits pbits Hb Hp [x] Hx v; subst v.
  destruct (range_facts bits pbits Hb Hp) as (Hmin & Hpmin & Hmax1 & Hmaxp).
  unfold in_range in *; step_method.
  repeat match goal with |- _ /\ _ => split end; intros; run_method;
    first [ reflexivity | lia ].
Qed.

Lemma prefix_increment_decrement_cases_witness :
  operator_pre_inc 8 32 (safe_int_of 126) =
    (Returns (safe_int_of 127), safe_int_of 127).
Proof.
  apply (prefix_increment_decrement_cases 8 32 ltac:(lia) ltac:(lia)
           (safe_int_of 126));
    unfold in_range; vm_compute; try split; intros; discriminate.
Defined.

(** X2: Postfix [++] and [--] fail at the same values as the prefix forms;
    otherwise they return an object holding the old value while the
    receiver moves to [val + 1] or [val - 1]. *)
Theorem postfix_increment_decrement_cases :
  forall (bits pbits : Z),
    2 <= bits -> bits <= pbits ->
    forall this : safe_int,
      in_range bits (value this) ->
      let v := value this in
      (v = max bits ->
       operator_post_inc bits pbits this = (Throws overflow_error, this)) /\
      (v <> max bits ->
       operator_post_inc bits pbits this =
         (Returns (safe_int_of v), safe_int_of (v + 1))) /\
      (v = min bits ->
       operator_post_dec bits pbits this = (Throws underflow_error, this)) /\
      (v <> min bits ->
       operator_post_dec bits pbits this =
         (Returns (safe_int_of v), safe_int_of (v - 1))).
Proof.
  intros bits pbits Hb Hp [x] Hx v; subst v.
  destruct (range_facts bits pbits Hb Hp) as (Hmin & Hpmin & Hmax1 & Hmaxp).
  unfold in_range in *; step_method.
  repeat match goal with |- _ /\ _ => split end; intros; run_method;
    first [ reflexivity | lia ].
Qed.

Lemma postfix_increment_decrement_cases_witness :
  operator_post_dec 8 32 (safe_int_of (-127)) =
    (Returns (safe_int_of (-127)), safe_int_of (-128)).
Proof.
  apply (postfix_increment_decrement_cases 8 32 ltac:(lia) ltac:(lia)
           (safe_int_of (-127)));
    unfold in_range; vm_compute; try split; intros; discriminate.
Defined.

(** X3: [++a] is [a += 1] and [--a] is [a -= 1]: same outcome, same receiver. *)
Theorem prefix_forms_are_unit_steps :
  forall (bits pbits : Z),
    2 <= bits -> bits <= pbits ->
    forall this : safe_int,
      in_range bits (value this) ->
      operator_pre_inc bits pbits this = operator_add_assign bits pbits 1 this /\
      operator_pre_dec bits pbits this = operator_sub_assign bits pbits 1 this.
Proof.
  intros bits pbits Hb Hp [x] Hx.
  destruct (range_facts bits pbits Hb Hp) as (Hmin & Hpmin & Hmax1 & Hmaxp).
  unfold in_range in *; step_method.
  split; run_method; first [ reflexivity | lia ].
Qed.

Lemma prefix_forms_are_unit_steps_witness :
  operator_pre_inc 8 32 (safe_int_of 127) =
    operator_add_assign 8 32 1 (safe_int_of 127) /\
  operator_pre_dec 8 32 (safe_int_of 127) =
    operator_sub_assign 8 32 1 (safe_int_of 127).
Proof.
  apply (prefix_forms_are_unit_steps 8 32 ltac:(lia) ltac:(lia)
           (safe_int_of 127)).
  unfold in_range; vm_compute; split; discriminate.
Defined.

(** ** Addition and subtraction are checked exactly *)

(** X4: In every overload, addition throws [overflow_error] exactly when
    [val + rhs > max], [underflow_error] exactly when [val + rhs < min],
    and otherwise returns [val + rhs]. *)
Theorem addition_is_exact :
  forall (bits pbits : Z),
    2 <= bits -> bits <= pbits ->
    forall (this : safe_int) (rhs : Z) (o : operation),
      in_range bits (value this) -> in_range bits rhs ->
      In o (overloads Add rhs) ->
      let v := value this in
      let r := result_of (run bits pbits o this) in
      (r = Throws overflow_error <-> max bits < v + rhs) /\
      (r = Throws underflow_error <-> v + rhs < min bits) /\
      (in_range bits (v + rhs) <-> r = Returns (safe_int_of (v + rhs))).
Proof.
  intros bits pbits Hb Hp [x] rhs o Hx Hrhs Ho v r; subst v r.
  destruct (range_facts bits pbits Hb Hp) as (Hmin & Hpmin & Hmax1 & Hmaxp).
  unfold in_range in *.
  cbn [overloads In] in Ho.
  destruct Ho as [<- | [<- | [<- | [<- | []]]]];
    step_method;
    repeat match goal with |- _ /\ _ => split end;
    split; intros; run_method;
    first [ reflexivity | discriminate | lia ].
Qed.

Lemma addition_is_exact_witness :
  let r := result_of (run 8 32 (Binary Add 28) (safe_int_of 100)) in
  (r = Throws overflow_error <-> max 8 < 100 + 28) /\
  (r = Throws underflow_error <-> 100 + 28 < min 8) /\
  (in_range 8 (100 + 28) <-> r = Returns (safe_int_of (100 + 28))).
Proof.
  apply (addition_is_exact 8 32 ltac:(lia) ltac:(lia) (safe_int_of 100) 28
           (Binary Add 28)).
  - unfold in_range; vm_compute; split; discriminate.
  - unfold in_range; vm_compute; split; discriminate.
  - cbn. auto.
Defined.

(** X5: In every overload, subtraction throws [overflow_error] exactly when
    [val - rhs > max], [underflow_error] exactly when [val - rhs < min],
    and otherwise returns [val - rhs]. *)
Theorem subtraction_is_exact :
  forall (bits pbits : Z),
    2 <= bits -> bits <= pbits ->
    forall (this : safe_int) (rhs : Z) (o : operation),
      in_range bits (value this) -> in_range bits rhs ->
      In o (overloads Sub rhs) ->
      let v := value this in
      let r := result_of (run bits pbits o this) in
      (r = Throws overflow_error <-> max bits < v - rhs) /\
      (r = Throws underflow_error <-> v - rhs < min bits) /\
      (in_range bits (v - rhs) <-> r = Returns (safe_int_of (v - rhs))).
Proof.
  intros bits pbits Hb Hp [x] rhs o Hx Hrhs Ho v r; subst v r.
  destruct (range_facts bits pbits Hb Hp) as (Hmin & Hpmin & Hmax1 & Hmaxp).
  unfold in_range in *.
  cbn [overloads In] in Ho.
  destruct Ho as [<- | [<- | [<- | [<- | []]]]];
    step_method;
    repeat match goal with |- _ /\ _ => split end;
    split; intros; run_method;
    first [ reflexivity | discriminate | lia ].
Qed.

Lemma subtraction_is_exact_witness :
  let r := result_of (run 8 32 (Compound Sub (-128)) (safe_int_of (-1))) in
  (r = Throws overflow_error <-> max 8 < -1 - -128) /\
  (r = Throws underflow_error <-> -1 - -128 < min 8) /\
  (in_range 8 (-1 - -128) <-> r = Returns (safe_int_of (-1 - -128))).
Proof.
  apply (subtraction_is_exact 8 32 ltac:(lia) ltac:(lia) (safe_int_of (-1))
           (-128) (Compound Sub (-128))).
  - unfold in_range; vm_compute; split; discriminate.
  - unfold in_range; vm_compute; split; discriminate.
  - cbn. auto.
Defined.

(** X6: Addition gives the same outcome whichever operand is the receiver. *)
Theorem addition_commutes :
  forall (bits pbits : Z),
    2 <= bits -> bits <= pbits ->
    forall a b : Z,
      in_range bits a -> in_range bits b ->
      result_of (operator_add bits pbits b (safe_int_of a)) =
      result_of (operator_add bits pbits a (safe_int_of b)).
Proof.
  intros bits pbits Hb Hp a b Ha Hab.
  destruct (range_facts bits pbits Hb Hp) as (Hmin & Hpmin & Hmax1 & Hmaxp).
  unfold in_range in *.
  run_method; first [ reflexivity | lia | do 2 f_equal; lia ].
Qed.

Lemma addition_commutes_witness :
  result_of (operator_add 8 32 (-100) (safe_int_of (-29))) =
  result_of (operator_add 8 32 (-29) (safe_int_of (-100))).
Proof.
  apply (addition_commutes 8 32 ltac:(lia) ltac:(lia) (-29) (-100));
    unfold in_range; vm_compute; split; discriminate.
Defined.

(** X7: A successful [a += rhs] is undone by [a -= rhs], and a successful
    [a -= rhs] by [a += rhs]: the second step never throws and the
    receiver is back at its first value. *)
Theorem add_and_sub_undo_each_other :
  forall (bits pbits : Z),
    2 <= bits -> bits <= pbits ->
    forall (this : safe_int) (rhs : Z),
      in_range bits (value this) -> in_range bits rhs ->
      (forall s,
          result_of (operator_add_assign bits pbits rhs this) = Returns s ->
          (operator_add_assign bits pbits rhs ;;
           operator_sub_assign bits pbits rhs) this = (Returns this, this)) /\
      (forall s,
          result_of (operator_sub_assign bits pbits rhs this) = Returns s ->
          (operator_sub_assign bits pbits rhs ;;
           operator_add_assign bits pbits rhs) this = (Returns this, this)).
Proof.
  intros bits pbits Hb Hp [x] rhs Hx Hrhs.
  destruct (range_facts bits pbits Hb Hp) as (Hmin & Hpmin & Hmax1 & Hmaxp).
  unfold in_range in *.
  split; intros s Hs; run_method;
    first [ discriminate | lia | do 2 f_equal; lia
          | f_equal; [ f_equal | ]; f_equal; lia ].
Qed.

Lemma add_and_sub_undo_each_other_witness :
  (operator_add_assign 8 32 (-128) ;; operator_sub_assign 8 32 (-128))
    (safe_int_of 127) = (Returns (safe_int_of 127), safe_int_of 127).
Proof.
  apply (add_and_sub_undo_each_other 8 32 ltac:(lia) ltac:(lia)
           (safe_int_of 127) (-128)) with (s := safe_int_of (-1));
    unfold in_range; vm_compute; try split; intros; try discriminate;
    reflexivity.
Defined.

(** ** Negation *)

(** X8: Negating twice gives the operand back: when [-a] returns [n], [-n]
    returns [a], and neither call changes its operand. *)
Theorem negation_is_an_involution :
  forall (bits pbits : Z),
    2 <= bits -> bits <= pbits ->
    forall this n : safe_int,
      in_range bits (value this) ->
      result_of (operator_neg bits pbits this) = Returns n ->
      operator_neg bits pbits n = (Returns this, n) /\
      receiver_after (operator_neg bits pbits this) = this.
Proof.
  intros bits pbits Hb Hp [x] [n] Hx.
  destruct (range_facts bits pbits Hb Hp) as (Hmin & Hpmin & Hmax1 & Hmaxp).
  unfold in_range in *. intros Hn.
  run_method; try discriminate;
    match goal with
    | H : Returns _ = Returns _ |- _ => inversion H; subst; clear H
    end;
    split; run_method;
    first [ reflexivity | lia | do 3 f_equal; lia ].
Qed.

Lemma negation_is_an_involution_witness :
  operator_neg 8 32 (safe_int_of (-127)) =
    (Returns (safe_int_of 127), safe_int_of (-127)) /\
  receiver_after (operator_neg 8 32 (safe_int_of 127)) = safe_int_of 127.
Proof.
  apply (negation_is_an_involution 8 32 ltac:(lia) ltac:(lia)
           (safe_int_of 127) (safe_int_of (-127))).
  - unfold in_range; vm_compute; split; discriminate.
  - reflexivity.
Defined.

(** X9: [-a] has the outcome of [safe_int(0) - a]: the same value, or
    [overflow_error] in both. *)
Theorem negation_is_subtraction_from_zero :
  forall (bits pbits : Z),
    2 <= bits -> bits <= pbits ->
    forall this : safe_int,
      in_range bits (value this) ->
      result_of (operator_neg bits pbits this) =
      result_of (operator_sub bits pbits (value this) (safe_int_of 0)).
Proof.
  intros bits pbits Hb Hp [x] Hx.
  destruct (range_facts bits pbits Hb Hp) as (Hmin & Hpmin & Hmax1 & Hmaxp).
  unfold in_range in *.
  run_method; first [ reflexivity | lia ].
Qed.

Lemma negation_is_subtraction_from_zero_witness :
  result_of (operator_neg 8 32 (safe_int_of (-128))) =
  result_of (operator_sub 8 32 (value (safe_int_of (-128))) (safe_int_of 0)).
Proof.
  apply (negation_is_subtraction_from_zero 8 32 ltac:(lia) ltac:(lia)
           (safe_int_of (-128))).
  unfold in_range; vm_compute; split; discriminate.
Defined.

(** ** What multiplication checks *)




(** X11: When multiplication returns, the object it returns holds the product
    converted to [I]: a member of [[min, max]] that differs from
    [val * rhs] by a multiple of [2 ^ bits], and is [val * rhs] itself
    when that is representable.  (The product is assumed to fit the
    promoted type, as it always does when [I] is narrower than [int].) *)
Theorem multiplication_returns_converted_product :
  forall (bits pbits : Z),
    2 <= bits -> bits <= pbits ->
    forall (f : form) (this s : safe_int) (rhs : Z),
      in_range pbits (value this * rhs) ->
      result_of (apply_op bits pbits f Mul rhs this) = Returns s ->
      let p := value this * rhs in
      in_range bits (value s) /\
      (exists k, value s = p + k * 2 ^ bits) /\
      (in_range bits p -> value s = p).
Proof.
  intros bits pbits Hb Hp f [x] s rhs Hfit Hs p; subst p.
  assert (Hval : value s = to_I bits (x * rhs)).
  { revert Hs. cbn [value val] in *.
    destruct f; all_paths; intros Hs;
      first [ discriminate Hs | inversion Hs; subst; clear Hs ];
      unfold int_mul, to_I;
      rewrite (wrap_exact pbits) by (unfold in_range in *; lia);
      reflexivity. }
  cbn [value val] in *. rewrite Hval.
  split; [ apply to_I_in_range; lia | split ].
  - unfold to_I, wrap.
    assert (0 < 2 ^ bits) by (apply Z.pow_pos_nonneg; lia).
    rewrite Z.mod_eq by lia.
    exists (- ((x * rhs + 2 ^ (bits - 1)) / 2 ^ bits)). ring.
  - intros Hin. apply to_I_exact; [ lia | exact Hin ].
Qed.

Lemma multiplication_returns_converted_product_witness :
  let p := value (safe_int_of 2) * -100 in
  in_range 8 (value (safe_int_of 56)) /\
  (exists k, value (safe_int_of 56) = p + k * 2 ^ 8) /\
  (in_range 8 p -> value (safe_int_of 56) = p).
Proof.
  apply (multiplication_returns_converted_product 8 32 ltac:(lia) ltac:(lia)
           Assigning (safe_int_of 2) (safe_int_of 56) (-100)).
  - unfold in_range; vm_compute; split; discriminate.
  - reflexivity.
Defined.

(** X12: A successful [a *= rhs] whose product is representable is undone by
    [a /= rhs] for every non-zero [rhs]: the division does not throw and
    the receiver is back at its first value. *)
Theorem division_undoes_multiplication :
  forall (bits pbits : Z),
    2 <= bits -> bits <= pbits ->
    forall (this s : safe_int) (rhs : Z),
      in_range bits (value this) -> in_range bits rhs ->
      rhs <> 0 -> in_range bits (value this * rhs) ->
      result_of (operator_mul_assign bits pbits rhs this) = Returns s ->
      (operator_mul_assign bits pbits rhs ;;
       operator_div_assign bits pbits rhs) this = (Returns this, this).
Proof.
  intros bits pbits Hb Hp [x] s rhs Hx Hrhs Hnz Hprod.
  destruct (range_facts bits pbits Hb Hp) as (Hmin & Hpmin & Hmax1 & Hmaxp).
  cbn [value val] in *.
  assert (Hback : Z.quot (x * rhs) rhs = x) by (apply Z.quot_mul; assumption).
  assert (Hq : - Z.abs (max bits) <= Z.quot (max bits) x <= Z.abs (max bits)
               \/ x = 0).
  { destruct (Z.eq_dec x 0); [ right; assumption | left ].
    apply quot_bounds; assumption. }
  unfold in_range in *.
  step_method; generalize (int_div pbits (min bits) x); intros [q | ] Hs.
  all: run_method; try discriminate;
    try rewrite Hback in *; exact_wraps;
    first [ reflexivity | lia | nia ].
Qed.

Lemma division_undoes_multiplication_witness :
  (operator_mul_assign 8 32 (-1) ;; operator_div_assign 8 32 (-1))
    (safe_int_of 127) = (Returns (safe_int_of 127), safe_int_of 127).
Proof.
  apply (division_undoes_multiplication 8 32 ltac:(lia) ltac:(lia)
           (safe_int_of 127) (safe_int_of (-127)) (-1));
    unfold in_range; vm_compute; try split; intros; try discriminate;
    reflexivity.
Defined.

(** ** Division, modulo and [domain_error] *)

(** X13: When [a / rhs] returns [q] and [a % rhs] returns [m], then
    [q * rhs + m] is [a]; the remainder is smaller in magnitude than the
    divisor and never has the opposite sign of [a]. *)
Theorem quotient_and_remainder_recompose :
  forall (bits pbits : Z),
    2 <= bits -> bits <= pbits ->
    forall (this q m : safe_int) (rhs : Z),
      in_range bits (value this) -> in_range bits rhs ->
      result_of (operator_div bits pbits rhs this) = Returns q ->
      result_of (operator_rem bits pbits rhs this) = Returns m ->
      value q * rhs + value m = value this /\
      Z.abs (value m) < Z.abs rhs /\
      0 <= value m * value this.
Proof.
  intros bits pbits Hb Hp [x] [q] [m] rhs Hx Hrhs.
  destruct (range_facts bits pbits Hb Hp) as (Hmin & Hpmin & Hmax1 & Hmaxp).
  pose proof (rem_in_range bits x rhs Hrhs) as Hrem.
  pose proof (quot_in_range bits Hb x rhs Hx Hrhs) as Hquot.
  unfold in_range in *. intros Hq Hm.
  run_method; try discriminate.
  all: specialize (Hrem ltac:(assumption)).
  all: assert (min bits <= Z.quot x rhs <= max bits)
         by (apply Hquot; [ assumption | lia ]).
  all: exact_wraps.
  all: repeat match goal with
              | H : Returns _ = Returns _ |- _ => inversion H; subst; clear H
              end.
  all: pose proof (Z.quot_rem' x rhs);
       pose proof (Z.rem_bound_abs x rhs ltac:(assumption));
       pose proof (Z.rem_sign_mul x rhs ltac:(assumption)).
  all: repeat split; lia.
Qed.

Lemma quotient_and_remainder_recompose_witness :
  value (safe_int_of 5) * -3 + value (safe_int_of (-2)) =
    value (safe_int_of (-17)) /\
  Z.abs (value (safe_int_of (-2))) < Z.abs (-3) /\
  0 <= value (safe_int_of (-2)) * value (safe_int_of (-17)).
Proof.
  apply (quotient_and_remainder_recompose 8 32 ltac:(lia) ltac:(lia)
           (safe_int_of (-17)) (safe_int_of 5) (safe_int_of (-2)) (-3));
    unfold in_range; vm_compute; try split; intros; try discriminate;
    reflexivity.
Defined.

(** X14: [domain_error] is thrown for a zero divisor and for nothing else: an
    operation throws it exactly when it is a division or a modulo, in any
    overload, whose right-hand operand is 0, whatever the stored value. *)
Theorem domain_error_means_zero_divisor :
  forall (bits pbits : Z),
    2 <= bits -> bits <= pbits ->
    forall (o : operation) (this : safe_int),
      in_range bits (value this) -> in_range bits (right_operand o) ->
      (result_of (run bits pbits o this) = Throws domain_error <->
       divides o = true /\ right_operand o = 0).
Proof.
  intros bits pbits Hb Hp o [x] Hx Hrhs.
  destruct (range_facts bits pbits Hb Hp) as (Hmin & Hpmin & Hmax1 & Hmaxp).
  assert (Hq : - Z.abs (max bits) <= Z.quot (max bits) x <= Z.abs (max bits)
               \/ x = 0).
  { destruct (Z.eq_dec x 0); [ right; assumption | left ].
    apply quot_bounds; assumption. }
  destruct o as [ | | | | | op rhs | op [rhs] | op rhs | op [rhs] ];
    try destruct op;
    cbn [divides right_operand value val] in *;
    unfold in_range in *; step_method;
    generalize (int_div pbits (min bits) x); intros [q | ];
    (split; [ intros Hthrow | intros [Hdiv Hzero] ]);
    run_method;
    first [ discriminate | reflexivity | lia | split; [ reflexivity | lia ] ].
Qed.

Lemma domain_error_means_zero_divisor_witness :
  result_of (run 8 32 (Compound Div 0) (safe_int_of (-128))) =
    Throws domain_error <->
  divides (Compound Div 0) = true /\ right_operand (Compound Div 0) = 0.
Proof.
  apply (domain_error_means_zero_divisor 8 32 ltac:(lia) ltac:(lia)
           (Compound Div 0) (safe_int_of (-128)));
    unfold in_range; vm_compute; split; discriminate.
Defined.

(** ** What the operators hand back *)

(** X15: Prefix [++] and [--] and every compound assignment return the
    receiver itself: whenever one of them returns, the object returned is
    the receiver as it stands after the call. *)
Theorem assigning_operators_return_receiver :
  forall (bits pbits : Z) (o : operation) (this r : safe_int),
    In o [PreInc; PreDec] \/
    (exists op rhs, o = Compound op rhs) \/
    (exists op rhs, o = CompoundSI op rhs) ->
    result_of (run bits pbits o this) = Returns r ->
    receiver_after (run bits pbits o this) = r.
Proof.
  intros bits pbits o [v] r Ho.
  assert (Hcases : o = PreInc \/ o = PreDec \/
                   (exists op rhs, o = Compound op rhs) \/
                   (exists op rhs, o = CompoundSI op rhs)).
  { cbn [In] in Ho. intuition auto. }
  destruct Hcases as [-> | [-> | [(op & rhs & ->) | (op & rhs & ->)]]];
    try destruct op; all_paths; intros Hret;
    first [ discriminate Hret | inversion Hret; reflexivity ].
Qed.

Lemma assigning_operators_return_receiver_witness :
  receiver_after (run 8 32 (Compound Sub 28) (safe_int_of (-100))) =
    safe_int_of (-128).
Proof.
  apply (assigning_operators_return_receiver 8 32 (Compound Sub 28)
           (safe_int_of (-100)) (safe_int_of (-128))).
  - right; left. exists Sub, 28. reflexivity.
  - reflexivity.
Defined.

(** ** Conversions between widths *)

(** X16: Passing [a.value()] to the constructor of a type at least as wide
    and the wide object's [value()] back to the constructor of the
    original type is lossless: neither construction throws, the wide
    object holds the same value, and the object built from it equals the
    original. *)
Theorem widening_round_trip :
  forall (bits wide : Z),
    2 <= bits -> bits <= wide ->
    forall a : safe_int,
      in_range bits (value a) ->
      exists w,
        safe_int_from_scalar wide (value a) = Returns w /\
        value w = value a /\
        safe_int_from_scalar bits (value w) = Returns a.
Proof.
  intros bits wide Hb Hw [x] Hx.
  destruct (range_facts bits wide Hb Hw) as (Hmin & Hpmin & Hmax1 & Hmaxp).
  unfold in_range in *; cbn [value val] in *.
  assert (Hwide : to_I wide x = x) by (apply wrap_exact; lia).
  assert (Hback : to_I bits x = x) by (apply wrap_exact; lia).
  exists (safe_int_of x).
  unfold safe_int_from_scalar, safe_int_of, value; cbn [val].
  rewrite Hwide, Hback. repeat split.
Qed.

Lemma widening_round_trip_witness :
  exists w,
    safe_int_from_scalar 16 (value (safe_int_of (-128))) = Returns w /\
    value w = value (safe_int_of (-128)) /\
    safe_int_from_scalar 8 (value w) = Returns (safe_int_of (-128)).
Proof.
  apply (widening_round_trip 8 16 ltac:(lia) ltac:(lia) (safe_int_of (-128))).
  unfold in_range; vm_compute; split; discriminate.
Defined.
